(** * Circuit construction in the Grover notebook [cybersecurity/grover_gaps.ipynb]

    A shallow embedding of the notebook's Python cells: [grover],
    [amplitude_callback], [oracle], [PhiMultiply], [Multiply], [factorize] and
    the result-interpretation cell.  Python integers are [Z], Python floats are
    the kernel's binary64 numbers, [Circuit] objects live in an explicit object
    store, and an exception is an outcome of its own. *)

From Stdlib Require Import ZArith Ascii String.
From Stdlib Require Import Floats.PrimFloat Floats.SpecFloat Floats.FloatOps.
From stdpp Require Import base tactics option list numbers sorting.

Local Open Scope Z_scope.

(** ** Python values and outcomes *)

(** The exceptions the modelled cells can raise.  [DanglingRef] is a guard of
    the model only: a Python name always refers to a live object. *)
Inductive exn : Type :=
  | ValueError
  | OverflowError
  | ZeroDivisionError
  | DanglingRef.

Inductive outcome (A : Type) : Type :=
  | Returns (a : A)
  | Raises (e : exn).
Arguments Returns {A} a.
Arguments Raises {A} e.

Definition outcome_bind {A B : Type} (o : outcome A) (k : A → outcome B) : outcome B :=
  match o with
  | Returns a => k a
  | Raises e => Raises e
  end.

(** A list comprehension [[f(b) for b in l]] whose element expression may raise:
    elements are evaluated left to right and the first exception ends it. *)
Fixpoint comprehension {A B : Type} (f : A → outcome B) (l : list A) : outcome (list B) :=
  match l with
  | [] => Returns []
  | a :: l' =>
      outcome_bind (f a) (λ b,
      outcome_bind (comprehension f l') (λ bs, Returns (b :: bs)))
  end.

(** [range(a, b)] over Python integers: empty when [b <= a]. *)
Definition range (a b : Z) : list Z := seqZ a (b - a).

(** [len(l)] as a Python integer. *)
Definition len {A : Type} (l : list A) : Z := Z.of_nat (length l).

(** ** Python strings, [bin], [int] *)

Definition pystr : Type := list ascii.

Definition lit (s : string) : pystr := list_ascii_of_string s.

(** Binary digits of a positive number, most significant first, in front of
    [acc]. *)
Fixpoint bin_digits (p : positive) (acc : pystr) : pystr :=
  match p with
  | xH => "1"%char :: acc
  | xO p' => bin_digits p' ("0"%char :: acc)
  | xI p' => bin_digits p' ("1"%char :: acc)
  end.

(** [bin(n)]: ['0b0'], ['0b1011'], ['-0b101']. *)
Definition bin (n : Z) : pystr :=
  match n with
  | Z0 => lit "0b0"
  | Zpos p => lit "0b" ++ bin_digits p []
  | Zneg p => lit "-0b" ++ bin_digits p []
  end.

(** [int(c)] for a one-character string [c]: a decimal digit, else
    [ValueError] (the characters met here are those of [bin]'s results). *)
Definition int_of_char (c : ascii) : outcome Z :=
  let n := Z.of_N (N_of_ascii c) in
  if (48 <=? n) && (n <=? 57) then Returns (n - 48) else Raises ValueError.

(** [bitarray.to01()]: one character per bit, position 0 first. *)
Definition bitarray : Type := list bool.

Definition to01 (b : bitarray) : pystr :=
  map (λ x : bool, if x then "1"%char else "0"%char) b.

(** [int(s, 2)] on a string of binary digits: the first character is the most
    significant digit; the empty string and a string holding another character
    are a [ValueError].  Signs, blanks, underscores and the [0b] prefix, which
    Python accepts too, never occur in a result of [to01] and are left aside. *)
Definition int_base2_step (acc : outcome Z) (c : ascii) : outcome Z :=
  outcome_bind acc (λ a,
    if Ascii.eqb c "0" then Returns (2 * a)
    else if Ascii.eqb c "1" then Returns (2 * a + 1)
    else Raises ValueError).

Definition int_base2 (s : pystr) : outcome Z :=
  match s with
  | [] => Raises ValueError
  | _ => fold_left int_base2_step s (Returns 0)
  end.

(** ** Python floats *)

(** [np.pi], the binary64 number nearest to pi. *)
Definition np_pi : float := 0x1.921fb54442d18p+1%float.

(** [2*np.pi]. *)
Definition two_pi : float := (2 * np_pi)%float.

(** [2.0 ** e] for a Python integer [e].  CPython raises [OverflowError] when
    the power is not finite, that is from [e = 1024] on; below the binary64
    range the power underflows to [0.0] without an exception. *)
Definition float_pow2 (e : Z) : outcome float :=
  if 1024 <=? e then Raises OverflowError else Returns (Z.ldexp 1%float e).

(** [v / w] on floats. *)
Definition float_div (v w : float) : outcome float :=
  if (w =? 0)%float then Raises ZeroDivisionError else Returns (v / w)%float.

(** C's [fmod]: [x - n*y] for [n] the quotient [x/y] rounded towards zero,
    computed without rounding; the result has the sign of [x]. *)
Definition fmod (x y : float) : float :=
  match Prim2SF x, Prim2SF y with
  | S754_nan, _ | _, S754_nan => nan
  | S754_infinity _, _ => nan
  | _, S754_zero _ => nan
  | S754_zero _, _ => x
  | S754_finite _ _ _, S754_infinity _ => x
  | S754_finite sx mx ex, S754_finite _ my ey =>
      let e := Z.min ex ey in
      let r := Z.rem (Zpos mx * 2 ^ (ex - e)) (Zpos my * 2 ^ (ey - e)) in
      match r with
      | Zpos p => SF2Prim (S754_finite sx p e)
      | _ => if sx then neg_zero else zero
      end
  end.

(** [v % w] on floats (CPython's [float_rem]): the remainder takes the sign of
    the divisor. *)
Definition float_rem (v w : float) : outcome float :=
  if (w =? 0)%float then Raises ZeroDivisionError
  else
    let m := fmod v w in
    if (m =? 0)%float then Returns (if get_sign w then neg_zero else zero)
    else if xorb (w <? 0)%float (m <? 0)%float then Returns (m + w)%float
    else Returns m.

(** ** Circuits *)

(** The operations of the simulator library that the notebook and its
    narrative name: gates, their controlled versions and the mid-circuit
    [Amplitude] probe. *)
Inductive Operation : Type :=
  | GateX
  | GateH
  | GateZ
  | GateP (theta : float)
  | Control (n : nat) (op : Operation)
  | Measure
  | Amplitude (bs : bitarray).

(** An instruction applies an operation to qubits (controls first), classical
    bits and z-register cells. *)
Record Instruction : Type := mkInstruction {
  operation : Operation;
  qubits : list Z;
  bits : list Z;
  zvars : list Z
}.

Abbreviation Circuit := (list Instruction).

Definition gate (op : Operation) (qs : list Z) : Instruction :=
  mkInstruction op qs [] [].

(** [Circuit.num_qubits]: one more than the largest qubit index in use. *)
Definition circuit_num_qubits (c : Circuit) : Z :=
  foldr (λ ins n, foldr (λ q m, Z.max (q + 1) m) n (qubits ins)) 0 c.

(** ** The object store and the construction monad *)

(** Every [Circuit] object is a cell of the store; a Python variable holding a
    circuit holds the cell's location.  [Circuit()] takes the next cell. *)
Abbreviation loc := nat (only parsing).
Abbreviation store := (list Circuit) (only parsing).

Definition Py (A : Type) : Type := store → outcome A * store.

Definition ret {A : Type} (a : A) : Py A := λ h, (Returns a, h).

Definition bind {A B : Type} (m : Py A) (k : A → Py B) : Py B :=
  λ h, match m h with
       | (Returns a, h') => k a h'
       | (Raises e, h') => (Raises e, h')
       end.

Definition lift {A : Type} (o : outcome A) : Py A := λ h, (o, h).

Notation "'let*' x ':=' m 'in' k" := (bind m (λ x, k))
  (at level 10, x name, m at level 100, k at level 200).

(** [pass]. *)
Definition pass : Py unit := ret tt.

(** [for x in l: body(x)]. *)
Fixpoint for_ {A : Type} (l : list A) (body : A → Py unit) : Py unit :=
  match l with
  | [] => ret tt
  | x :: l' => let* _ := body x in for_ l' body
  end.

(** [Circuit()]: a new, empty circuit object. *)
Definition Circuit_new : Py loc := λ h, (Returns (length h), h ++ [[]]).

Definition Circuit_read (c : loc) : Py Circuit :=
  λ h, match h !! c with
       | Some ins => (Returns ins, h)
       | None => (Raises DanglingRef, h)
       end.

Definition Circuit_extend (c : loc) (new : Circuit) : Py unit :=
  λ h, match h !! c with
       | Some ins => (Returns tt, <[c := ins ++ new]> h)
       | None => (Raises DanglingRef, h)
       end.

(** [c.num_qubits()]. *)
Definition num_qubits (c : loc) : Py Z :=
  let* ins := Circuit_read c in ret (circuit_num_qubits ins).

(** [c.append(other)] for a circuit [other]: its instructions are added at
    the end of [c]. *)
Definition append (c other : loc) : Py unit :=
  let* ins := Circuit_read other in Circuit_extend c ins.

(** [c.push(op, target)] for an operation on one z-register cell.  The
    library refuses a negative index with [ValueError]; nothing is added
    then. *)
Definition push_z (c : loc) (op : Operation) (z : Z) : Py unit :=
  if z <? 0 then lift (Raises ValueError)
  else Circuit_extend c [mkInstruction op [] [] [z]].

(** ** The notebook's functions *)

(** [grover(iterations, oracle_circ, callback=None)], lines 90-115.  The
    superposition, the oracle and the diffusion operator are [TODO] comments in
    the source: the loop body holds the callback branch only. *)
Definition grover (iterations : Z) (oracle_circ : loc)
    (callback : option (Z → Py loc)) : Py loc :=
  let* nq := num_qubits oracle_circ in
  let* circ := Circuit_new in
  let* _ := for_ (range 0 iterations) (λ i,
    match callback with
    | Some cb => let* c := cb i in append circ c
    | None => ret tt
    end) in
  ret circ.

(** [amplitude_callback(bitstring)], lines 133-138. *)
Definition amplitude_callback (bitstring : bitarray) : Z → Py loc :=
  λ i,
    let* circ := Circuit_new in
    let* _ := push_z circ (Amplitude bitstring) i in
    ret circ.

(** [oracle(bitstring)], lines 156-175: the three steps are [TODO] comments. *)
Definition oracle (bitstring : bitarray) : Py loc :=
  let nq := len bitstring in
  let* circ := Circuit_new in
  ret circ.

(** [angle = 2*np.pi / 2.0**(k - j - i + 1)], line 317. *)
Definition PhiMultiply_angle (k j i : Z) : outcome float :=
  outcome_bind (float_pow2 (k - j - i + 1)) (λ p, float_div two_pi p).

(** [angle % (2*np.pi) != 0], line 318. *)
Definition PhiMultiply_guard (k j i : Z) : outcome bool :=
  outcome_bind (PhiMultiply_angle k j i) (λ angle,
  outcome_bind (float_rem angle two_pi) (λ m,
  Returns (negb (m =? 0)%float))).

(** [PhiMultiply(X, Y, Z)], lines 305-322: the guarded statement is [pass]
    under a [TODO] comment. *)
Definition PhiMultiply (X Y Zr : list Z) : Py loc :=
  let* circ := Circuit_new in
  let nx := len X in
  let ny := len Y in
  let nz := len Zr in
  let* _ := for_ (range 0 nx) (λ j,
    for_ (range 0 ny) (λ i,
      for_ (range (i + j) nz) (λ k,
        let* g := lift (PhiMultiply_guard k j i) in
        if g then pass else ret tt))) in
  ret circ.

(** [Multiply(X, Y, Z)], lines 324-335. *)
Definition Multiply (X Y Zr : list Z) : Py loc :=
  let* circ := Circuit_new in
  let nx := len X in
  let ny := len Y in
  let nz := len Zr in
  ret circ.

(** The register lists of [factorize], lines 356-359. *)
Definition factorize_registers (nx ny : Z) : list Z * list Z * list Z :=
  let nz := nx + ny + 1 in
  let X := range 0 nx in
  let Y := range nx (nx + ny) in
  let Zr := range (nx + ny) (nx + ny + nz) in
  (X, Y, Zr).

(** [Nj = [int(b) for b in bin(N)[2:][::-1]]], line 361. *)
Definition factorize_Nj (N : Z) : outcome (list Z) :=
  comprehension int_of_char (reverse (drop 2 (bin N))).

(** The local variables of [factorize] when it returns. *)
Record factorize_frame : Type := mkFrame {
  f_X : list Z;
  f_Y : list Z;
  f_Z : list Z;
  f_Nj : list Z;
  f_circ : loc
}.

(** [factorize(N, K, nx, ny)], lines 354-382, with its local variables. *)
Definition factorize_locals (N K nx ny : Z) : Py factorize_frame :=
  let '(X, Y, Zr) := factorize_registers nx ny in
  let* Nj := lift (factorize_Nj N) in
  let* circ := Circuit_new in
  let* _ := for_ (range 0 K) (λ k, pass) in
  ret (mkFrame X Y Zr Nj circ).

Definition factorize (N K nx ny : Z) : Py loc :=
  let* fr := factorize_locals N K nx ny in ret (f_circ fr).

(** The circuit a construction call returns, when it returns one. *)
Definition built (m : Py loc) (h : store) : option Circuit :=
  match m h with
  | (Returns l, h') => h' !! l
  | (Raises _, _) => None
  end.

(** The result-interpretation cell, line 432: [int(bitarray.to01(), 2)]. *)
Definition decode (b : bitarray) : outcome Z := int_base2 (to01 b).

(** A register prepared bit by bit from [Nj] and read back as a bitstring
    holds [Nj[b]] at position [b]. *)
Definition measured (Nj : list Z) : bitarray := map (λ b, negb (b =? 0)) Nj.

(** Encoding [N] as [factorize] does, then decoding as the result cell does. *)
Definition roundtrip (N : Z) : outcome Z :=
  outcome_bind (factorize_Nj N) (λ Nj, decode (measured Nj)).

(** ** The constructions as the specification describes them *)

(** Section 4.4: for each iteration index, the callback's instructions (when
    there is a callback), then the oracle, then the diffusion operator over the
    oracle's qubits.  The diffusion builder is not part of the notebook and is
    a parameter. *)
Definition grover_spec (diffusion : Z → Circuit) (iterations : Z)
    (oracle_ins : Circuit) (callback : option (Z → Circuit)) : Circuit :=
  concat (map (λ i,
    from_option (λ cb, cb i) [] callback
      ++ oracle_ins ++ diffusion (circuit_num_qubits oracle_ins))
    (range 0 iterations)).

(** Section 4.2, step one: an X gate on every qubit whose target bit is 0. *)
Definition oracle_flips (bitstring : bitarray) : Circuit :=
  concat (imap (λ q (b : bool), if b then [] else [gate GateX [Z.of_nat q]]) bitstring).

(** Section 4.2: the flips, one phase flip controlled on all [n] qubits, the
    same flips again. *)
Definition oracle_spec (bitstring : bitarray) : Circuit :=
  let n := length bitstring in
  oracle_flips bitstring
    ++ [gate (Control (n - 1) GateZ) (range 0 (Z.of_nat n))]
    ++ oracle_flips bitstring.

(** Section 4.5: the rotation angle [2 pi / 2^e] of a triple with exponent
    [e = k - j - i + 1]; it is a whole multiple of [2 pi] exactly when
    [e <= 0]. *)
Definition spec_angle (e : Z) : float := (two_pi / Z.ldexp 1 e)%float.

Definition spec_phase_gate (X Y Zr : list Z) (j i k : Z) : Circuit :=
  if k - j - i + 1 <=? 0 then []
  else
    match X !! Z.to_nat j, Y !! Z.to_nat i, Zr !! Z.to_nat k with
    | Some x, Some y, Some z =>
        [gate (Control 2 (GateP (spec_angle (k - j - i + 1)))) [x; y; z]]
    | _, _, _ => []
    end.

(** Section 4.5: one doubly-controlled phase gate per triple of the loop
    range. *)
Definition PhiMultiply_spec (X Y Zr : list Z) : Circuit :=
  concat (map (λ j,
    concat (map (λ i,
      concat (map (λ k, spec_phase_gate X Y Zr j i k) (range (i + j) (len Zr))))
      (range 0 (len Y))))
    (range 0 (len X))).

(** ** Auxiliary notions for the proofs *)

(** The binary digits of a positive number, least significant first. *)
Fixpoint pos_bits (p : positive) : list Z :=
  match p with
  | xH => [1]
  | xO p' => 0 :: pos_bits p'
  | xI p' => 1 :: pos_bits p'
  end.

Definition char_of_bit (b : Z) : ascii := if b =? 0 then "0"%char else "1"%char.

(** The value of a digit list read least significant digit first. *)
Fixpoint lsb_value (l : list Z) : Z :=
  match l with
  | [] => 0
  | b :: l' => b + 2 * lsb_value l'
  end.

(** The guard of [PhiMultiply] at exponent [e = k - j - i + 1], checked by
    evaluation: the angle is computed, lies in (0, pi], and the guard is
    true. *)
Definition guard_holds (e : Z) : bool :=
  match PhiMultiply_angle (e - 1) 0 0, PhiMultiply_guard (e - 1) 0 0 with
  | Returns a, Returns true => (0 <? a)%float && (a <=? np_pi)%float
  | _, _ => false
  end.

(** What a construction call does to the store [h] it runs in: every object
    of [h] is left as it is (the store only grows), and the call either raises
    [e] or returns a location that did not exist in [h] and now holds the
    circuit [c]. *)
Definition constructs_in (h : store) (m : Py loc) (o : outcome Circuit) : Prop :=
  ∃ g,
    (m h).2 = h ++ g ∧
    match o, (m h).1 with
    | Returns c, Returns l => (length h ≤ l)%nat ∧ (h ++ g) !! l = Some c
    | Raises e, Raises e' => e = e'
    | _, _ => False
    end.

(** The same in every store, with the same circuit or exception. *)
Definition constructs (m : Py loc) (o : outcome Circuit) : Prop :=
  ∀ h, constructs_in h m o.

(** A callback that leaves the objects it finds as they are.  In every
    store that extends [h], and at every index that [grover] passes to it,
    [0 <= i < iterations], the callback returns; the store it leaves is the
    one it found with objects added at the end; the location it returns holds
    the circuit [val i].  That location may be a new object (as with
    [amplitude_callback]) or one that existed (a callback that hands back a
    circuit it was given).  Without a callback nothing is appended. *)
Definition callback_adds (h : store) (iterations : Z)
    (callback : option (Z → Py loc)) (val : Z → Circuit) : Prop :=
  match callback with
  | Some cb =>
      ∀ i g, 0 ≤ i < iterations →
        ∃ l g', cb i (h ++ g) = (Returns l, (h ++ g) ++ g') ∧
                ((h ++ g) ++ g') !! l = Some (val i)
  | None => ∀ i, 0 ≤ i < iterations → val i = []
  end.

(** Two calls of [m] in a row, the first in the store [h]: no object is
    changed or removed by either call; both raise the same exception, or both
    return, each a location that did not exist before its call, the two
    locations differ, and after the second call both hold the same circuit,
    the one the first call returned. *)
Definition same_fresh_results (m : Py loc) (h : store) : Prop :=
  let '(r1, h1) := m h in
  let '(r2, h2) := m h1 in
  (∃ g1 g2, h1 = h ++ g1 ∧ h2 = h1 ++ g2) ∧
  match r1, r2 with
  | Returns l1, Returns l2 =>
      (length h ≤ l1)%nat ∧ (length h1 ≤ l2)%nat ∧ l1 ≠ l2 ∧
      ∃ c, h1 !! l1 = Some c ∧ h2 !! l1 = Some c ∧ h2 !! l2 = Some c
  | Raises e1, Raises e2 => e1 = e2
  | _, _ => False
  end.

(** A callback that keeps one circuit object [s], pushes a probe on it at
    every invocation and returns it: a Python closure over a circuit. *)
Definition shared_callback (s : loc) : Z → Py loc :=
  λ i, let* _ := push_z s (Amplitude []) i in ret s.

(** ** The result-interpretation cell, lines 428-444 *)

(** [res.histogram()]: the measured bitstrings with their numbers of shots, in
    the order of the dictionary. *)
Abbreviation histogram := (list (bitarray * Z)) (only parsing).

(** [sorted(l)] on integers: the elements in ascending order. *)
Definition sorted (l : list Z) : list Z := merge_sort Z.le l.

(** [sorted([int(bitarray.to01(), 2) for bitarray in histogram.keys()])],
    line 432. *)
Definition sorted_results (hist : histogram) : outcome (list Z) :=
  outcome_bind (comprehension decode (map fst hist)) (λ l, Returns (sorted l)).

(** The value of a bitstring read most significant bit first. *)
Definition msb_value (b : bitarray) : Z :=
  fold_left (λ acc (x : bool), 2 * acc + Z.b2z x) b 0.

(** The angles of [PhiMultiply] at the exponents [e] and [e + 1], checked by
    evaluation: both are computed and the second, doubled, is the first. *)
Definition angle_halves (e : Z) : bool :=
  match PhiMultiply_angle (e - 1) 0 0, PhiMultiply_angle e 0 0 with
  | Returns a, Returns a' => (a' * 2 =? a)%float && (0 <? a')%float
  | _, _ => false
  end.

(** * Properties *)

(** ** Sanity checks of the Python primitives *)

Example float_rem_pos : float_rem 7.5%float 2%float = Returns 1.5%float.
Proof. vm_compute. reflexivity. Qed.

Example float_rem_neg : float_rem (-7.5)%float 2%float = Returns 0.5%float.
Proof. vm_compute. reflexivity. Qed.

Example float_rem_small : float_rem 0.75%float two_pi = Returns 0.75%float.
Proof. vm_compute. reflexivity. Qed.

Example float_rem_big : float_rem 0x1p+600%float 3%float = Returns 1%float.
Proof. vm_compute. reflexivity. Qed.

Example float_rem_multiple : float_rem (4 * two_pi)%float two_pi = Returns 0%float.
Proof. vm_compute. reflexivity. Qed.

Example bin_11 : bin 11 = lit "0b1011".
Proof. reflexivity. Qed.

Example bin_neg5 : bin (-5) = lit "-0b101".
Proof. reflexivity. Qed.


(** ** The construction monad *)

Lemma for_pass {A : Type} (l : list A) (h : store) :
  for_ l (λ _, pass) h = (Returns tt, h).
Proof.
  induction l as [|x l IH]; [done|].
  simpl. unfold bind, pass, ret. exact IH.
Qed.

Lemma Circuit_new_run (h : store) :
  Circuit_new h = (Returns (length h), h ++ [[]]).
Proof. reflexivity. Qed.

Lemma bind_returns {A B : Type} (m : Py A) (k : A → Py B) (h h' : store) (a : A) :
  m h = (Returns a, h') → bind m k h = k a h'.
Proof. intros Hm. unfold bind. by rewrite Hm. Qed.

Lemma bind_raises {A B : Type} (m : Py A) (k : A → Py B) (h h' : store) (e : exn) :
  m h = (Raises e, h') → bind m k h = (Raises e, h').
Proof. intros Hm. unfold bind. by rewrite Hm. Qed.

(** The monad laws, store by store. *)
Lemma bind_ret_l {A B : Type} (a : A) (k : A → Py B) (h : store) :
  bind (ret a) k h = k a h.
Proof. reflexivity. Qed.

Lemma bind_ret_r {A : Type} (m : Py A) (h : store) : bind m ret h = m h.
Proof. unfold bind, ret. by destruct (m h) as [[a|e] h']. Qed.

Lemma bind_assoc {A B C : Type} (m : Py A) (k : A → Py B) (k' : B → Py C) (h : store) :
  bind (bind m k) k' h = bind m (λ a, bind (k a) k') h.
Proof. unfold bind. by destruct (m h) as [[a|e] h']. Qed.

(** [step H] runs the first statement of a sequence, whose run is [H]. *)
Ltac step H := rewrite (bind_returns _ _ _ _ _ H).

Lemma Circuit_read_run (c : loc) (ins : Circuit) (h : store) :
  h !! c = Some ins → Circuit_read c h = (Returns ins, h).
Proof. intros Hc. unfold Circuit_read. by rewrite Hc. Qed.

Lemma Circuit_extend_run (c : loc) (ins new : Circuit) (h : store) :
  h !! c = Some ins → Circuit_extend c new h = (Returns tt, <[c := ins ++ new]> h).
Proof. intros Hc. unfold Circuit_extend. by rewrite Hc. Qed.

Lemma num_qubits_run (c : loc) (ins : Circuit) (h : store) :
  h !! c = Some ins → num_qubits c h = (Returns (circuit_num_qubits ins), h).
Proof.
  intros Hc. unfold num_qubits.
  by step (Circuit_read_run _ _ _ Hc).
Qed.

Lemma append_run (c other : loc) (ins new : Circuit) (h : store) :
  h !! c = Some ins → h !! other = Some new →
  append c other h = (Returns tt, <[c := ins ++ new]> h).
Proof.
  intros Hc Ho. unfold append.
  step (Circuit_read_run _ _ _ Ho).
  by apply Circuit_extend_run.
Qed.

(** ** The encoding of [N], line 361 *)

Lemma bin_digits_bits (p : positive) (acc : pystr) :
  bin_digits p acc = reverse (map char_of_bit (pos_bits p)) ++ acc.
Proof.
  revert acc. induction p as [p IH|p IH|]; intros acc; simpl.
  - rewrite IH, reverse_cons, <- app_assoc. reflexivity.
  - rewrite IH, reverse_cons, <- app_assoc. reflexivity.
  - reflexivity.
Qed.

Lemma pos_bits_binary (p : positive) : Forall (λ b, b = 0 ∨ b = 1) (pos_bits p).
Proof. induction p; simpl; constructor; auto. Qed.

Lemma comprehension_bits (l : list Z) :
  Forall (λ b, b = 0 ∨ b = 1) l →
  comprehension int_of_char (map char_of_bit l) = Returns l.
Proof.
  induction 1 as [|b l Hb _ IH]; [done|].
  simpl. rewrite IH. destruct Hb as [-> | ->]; reflexivity.
Qed.

Lemma comprehension_snoc_raises {A B : Type} (f : A → outcome B) l bs x e :
  comprehension f l = Returns bs →
  f x = Raises e →
  comprehension f (l ++ [x]) = Raises e.
Proof.
  revert bs. induction l as [|a l IH]; intros bs Hl Hx; simpl in *.
  - by rewrite Hx.
  - destruct (f a) as [b|e']; simpl in *; [|done].
    destruct (comprehension f l) as [bs'|e'] eqn:E; simpl in *; [|done].
    by rewrite (IH bs' eq_refl Hx).
Qed.

Lemma factorize_Nj_pos (p : positive) : factorize_Nj (Zpos p) = Returns (pos_bits p).
Proof.
  unfold factorize_Nj, bin. change (drop 2 (lit "0b" ++ ?l)) with l.
  rewrite bin_digits_bits, app_nil_r, reverse_involutive.
  apply comprehension_bits, pos_bits_binary.
Qed.

Lemma factorize_Nj_zero : factorize_Nj 0 = Returns [0].
Proof. reflexivity. Qed.

Lemma factorize_Nj_neg (p : positive) : factorize_Nj (Zneg p) = Raises ValueError.
Proof.
  unfold factorize_Nj, bin.
  change (drop 2 (lit "-0b" ++ ?l)) with ("b"%char :: l).
  rewrite bin_digits_bits, app_nil_r, reverse_cons, reverse_involutive.
  eapply comprehension_snoc_raises; [|reflexivity].
  apply comprehension_bits, pos_bits_binary.
Qed.

Lemma shiftr_mod2 (a n : Z) : 0 ≤ n → (a ≫ n) `mod` 2 = Z.b2z (Z.testbit a n).
Proof.
  intros Hn. rewrite Z.shiftr_div_pow2 by done. symmetry. by apply Z.testbit_spec'.
Qed.

Lemma pos_bits_lookup (p : positive) (b : nat) (x : Z) :
  pos_bits p !! b = Some x → x = Z.b2z (Z.testbit (Zpos p) (Z.of_nat b)).
Proof.
  revert b. induction p as [p IH|p IH|]; intros [|b] Hb; simpl in Hb.
  - injection Hb as <-. reflexivity.
  - rewrite Nat2Z.inj_succ, Pos2Z.inj_xI, Z.testbit_odd_succ by lia. by apply IH.
  - injection Hb as <-. reflexivity.
  - rewrite Nat2Z.inj_succ, Pos2Z.inj_xO, Z.testbit_even_succ by lia. by apply IH.
  - injection Hb as <-. reflexivity.
  - destruct b; discriminate.
Qed.

Lemma pos_bits_above (p : positive) (b : nat) :
  (length (pos_bits p) ≤ b)%nat → Z.testbit (Zpos p) (Z.of_nat b) = false.
Proof.
  revert b. induction p as [p IH|p IH|]; intros [|b] Hb; simpl in Hb; try lia.
  - rewrite Nat2Z.inj_succ, Pos2Z.inj_xI, Z.testbit_odd_succ by lia. apply IH. lia.
  - rewrite Nat2Z.inj_succ, Pos2Z.inj_xO, Z.testbit_even_succ by lia. apply IH. lia.
  - rewrite Nat2Z.inj_succ. change 1 with (2 * 0 + 1).
    rewrite Z.testbit_odd_succ by lia. apply Z.testbit_0_l.
Qed.

Lemma pos_bits_length (p : positive) : len (pos_bits p) = Z.log2 (Zpos p) + 1.
Proof.
  unfold len.
  assert (Hsize : Z.of_nat (length (pos_bits p)) = Zpos (Pos.size p)).
  { induction p as [p IH|p IH|]; simpl pos_bits; simpl length; [| |done];
      rewrite Nat2Z.inj_succ, IH; simpl; lia. }
  rewrite Hsize. destruct p; simpl; lia.
Qed.

Lemma pos_bits_last (p : positive) : list.last (pos_bits p) = Some 1.
Proof.
  induction p as [p IH|p IH|]; simpl pos_bits; [| |done];
    rewrite last_cons, IH; reflexivity.
Qed.

Lemma pos_bits_value (p : positive) : lsb_value (pos_bits p) = Zpos p.
Proof. induction p as [p IH|p IH|]; simpl; lia. Qed.

(** On a non-negative [N] the comprehension returns, and its value is known
    in closed form. *)
Lemma factorize_Nj_nonneg (N : Z) :
  0 ≤ N →
  factorize_Nj N = Returns (match N with Zpos p => pos_bits p | _ => [0] end).
Proof.
  destruct N as [|p|p]; intros HN; [done| |lia]. apply factorize_Nj_pos.
Qed.

(** [factorize] on a non-negative [N]: the call returns, whatever the register
    sizes, with a new empty circuit. *)
Lemma factorize_locals_run (N K nx ny : Z) (h : store) (Nj : list Z) :
  factorize_Nj N = Returns Nj →
  factorize_locals N K nx ny h =
    (Returns (mkFrame (range 0 nx) (range nx (nx + ny))
                (range (nx + ny) (nx + ny + (nx + ny + 1))) Nj (length h)),
     h ++ [[]]).
Proof.
  intros HNj. unfold factorize_locals, factorize_registers, bind, lift.
  rewrite HNj, Circuit_new_run, for_pass. reflexivity.
Qed.

Lemma factorize_run (N K nx ny : Z) (h : store) :
  factorize N K nx ny h =
    if 0 <=? N then (Returns (length h), h ++ [[]]) else (Raises ValueError, h).
Proof.
  unfold factorize, bind. destruct N as [|p|p]; simpl (0 <=? _).
  - by rewrite (factorize_locals_run _ _ _ _ _ _ factorize_Nj_zero).
  - by rewrite (factorize_locals_run _ _ _ _ _ _ (factorize_Nj_pos p)).
  - unfold factorize_locals, factorize_registers, bind, lift.
    by rewrite factorize_Nj_neg.
Qed.

Lemma len_range (a b : Z) : len (range a b) = Z.max 0 (b - a).
Proof. unfold len, range. rewrite length_seqZ. lia. Qed.

Lemma elem_of_range (a b q : Z) : q ∈ range a b ↔ a ≤ q < b.
Proof. unfold range. rewrite elem_of_seqZ. lia. Qed.

Lemma range_app (a b c : Z) : a ≤ b → b ≤ c → range a c = range a b ++ range b c.
Proof.
  intros Hab Hbc. unfold range.
  replace (c - a) with ((b - a) + (c - b)) by lia.
  rewrite seqZ_app by lia. do 3 f_equal. lia.
Qed.

Lemma lookup_range (a b : Z) (i : nat) :
  Z.of_nat i < b - a → range a b !! i = Some (a + Z.of_nat i).
Proof. apply lookup_seqZ_lt. Qed.

(** C7: for every N >= 0 the call of factorize returns, and the bit list Nj it
    computed is the binary expansion of N, least significant bit first: the
    entry at position b is (N >> b) mod 2, and the bits of N at the positions
    past the end of the list are all 0. *)
Theorem factorize_Nj_lsb_first (N K nx ny : Z) (h : store) :
  0 ≤ N →
  ∃ fr h',
    factorize_locals N K nx ny h = (Returns fr, h') ∧
    factorize_Nj N = Returns (f_Nj fr) ∧
    (∀ b : nat, (b < length (f_Nj fr))%nat →
       f_Nj fr !! b = Some ((N ≫ Z.of_nat b) `mod` 2)) ∧
    (∀ b : nat, (length (f_Nj fr) ≤ b)%nat → (N ≫ Z.of_nat b) `mod` 2 = 0).
Proof.
  intros HN. pose proof (factorize_Nj_nonneg N HN) as HNj.
  eexists _, _. split; [apply (factorize_locals_run _ _ _ _ _ _ HNj)|].
  split; [exact HNj|]. simpl f_Nj.
  destruct N as [|p|p]; [| |lia].
  - split; intros b Hb; [|by rewrite Z.shiftr_0_l].
    destruct b; [reflexivity|simpl in Hb; lia].
  - split; intros b Hb; rewrite shiftr_mod2 by lia.
    + destruct (lookup_lt_is_Some_2 _ _ Hb) as [x Hx].
      rewrite Hx. f_equal. by apply pos_bits_lookup.
    + by rewrite pos_bits_above.
Qed.

Lemma factorize_Nj_lsb_first_witness :
  ∃ fr h',
    factorize_locals 143 8 4 4 [] = (Returns fr, h') ∧
    factorize_Nj 143 = Returns (f_Nj fr) ∧
    (∀ b : nat, (b < length (f_Nj fr))%nat →
       f_Nj fr !! b = Some ((143 ≫ Z.of_nat b) `mod` 2)) ∧
    (∀ b : nat, (length (f_Nj fr) ≤ b)%nat → (143 ≫ Z.of_nat b) `mod` 2 = 0).
Proof. apply (factorize_Nj_lsb_first 143 8 4 4 []). lia. Defined.

(** C10: for every N >= 1 the call of factorize returns with a bit list Nj of
    length exactly floor(log2 N) + 1 whose last entry is 1.  The list carries
    no padding up to the length nz = nx + ny + 1 of the Z register: it is
    shorter than the register whenever N < 2^(nz - 1).  Nothing compares its
    length with nz: whenever N >= 2^nz the call still returns and Nj is longer
    than the Z register. *)
Theorem factorize_Nj_unpadded (N K nx ny : Z) (h : store) :
  1 ≤ N →
  ∃ fr h',
    factorize_locals N K nx ny h = (Returns fr, h') ∧
    len (f_Nj fr) = Z.log2 N + 1 ∧
    list.last (f_Nj fr) = Some 1 ∧
    len (f_Z fr) = Z.max 0 (nx + ny + 1) ∧
    (0 ≤ nx + ny → N < 2 ^ (nx + ny) → len (f_Nj fr) < len (f_Z fr)) ∧
    (2 ^ (nx + ny + 1) ≤ N → len (f_Z fr) < len (f_Nj fr)).
Proof.
  intros HN. destruct N as [|p|p]; try lia.
  eexists _, _. split; [apply (factorize_locals_run _ _ _ _ _ _ (factorize_Nj_pos p))|].
  simpl f_Nj; simpl f_Z.
  rewrite pos_bits_length, pos_bits_last, len_range.
  pose proof (Z.log2_nonneg (Zpos p)) as Hlog.
  repeat split; [lia| |].
  - intros Hnz Hpow. apply Z.log2_lt_pow2 in Hpow; lia.
  - intros Hpow.
    destruct (Z.le_gt_cases 0 (nx + ny + 1)) as [Hnz|Hnz]; [|lia].
    apply Z.log2_le_pow2 in Hpow; lia.
Qed.

Lemma factorize_Nj_unpadded_witness :
  ∃ fr h',
    factorize_locals 143 8 1 2 [] = (Returns fr, h') ∧
    len (f_Nj fr) = Z.log2 143 + 1 ∧
    list.last (f_Nj fr) = Some 1 ∧
    len (f_Z fr) = Z.max 0 (1 + 2 + 1) ∧
    (0 ≤ 1 + 2 → 143 < 2 ^ (1 + 2) → len (f_Nj fr) < len (f_Z fr)) ∧
    (2 ^ (1 + 2 + 1) ≤ 143 → len (f_Z fr) < len (f_Nj fr)).
Proof. apply (factorize_Nj_unpadded 143 8 1 2 []). lia. Defined.

(** C1: the round trip fails on the code.  N = 6 lies in [0, 2^3); factorize
    encodes it as [0; 1; 1], the result cell reads the bitstring 011 as 3. *)
Theorem roundtrip_6 :
  0 ≤ 6 < 2 ^ (1 + 1 + 1) ∧
  factorize_Nj 6 = Returns [0; 1; 1] ∧
  to01 (measured [0; 1; 1]) = lit "011" ∧
  roundtrip 6 = Returns 3 ∧
  roundtrip 6 ≠ Returns 6.
Proof. split; [lia|]. repeat split; [reflexivity..|discriminate]. Qed.

(** ** The registers of [factorize], lines 356-359 *)

(** C2: for nx >= 1 and ny >= 1 the lists X, Y and Z of factorize are the
    three consecutive blocks of 0, 1, ..., nx+ny+nx+ny+1 - 1: put one after the
    other they are that interval in increasing order; X holds exactly the
    indices of [0, nx), Y those of [nx, nx+ny), Z those of
    [nx+ny, nx+ny+nx+ny+1), each in increasing order without a gap; no index
    is in two of them. *)
Theorem factorize_registers_partition (nx ny : Z) :
  1 ≤ nx → 1 ≤ ny →
  let '(X, Y, Zr) := factorize_registers nx ny in
  X ++ Y ++ Zr = range 0 (nx + ny + nx + ny + 1) ∧
  (len X = nx ∧ len Y = ny ∧ len Zr = nx + ny + 1) ∧
  (∀ i : nat, Z.of_nat i < nx → X !! i = Some (Z.of_nat i)) ∧
  (∀ i : nat, Z.of_nat i < ny → Y !! i = Some (nx + Z.of_nat i)) ∧
  (∀ i : nat, Z.of_nat i < nx + ny + 1 → Zr !! i = Some (nx + ny + Z.of_nat i)) ∧
  (∀ q, q ∈ X ↔ 0 ≤ q < nx) ∧
  (∀ q, q ∈ Y ↔ nx ≤ q < nx + ny) ∧
  (∀ q, q ∈ Zr ↔ nx + ny ≤ q < nx + ny + nx + ny + 1) ∧
  (∀ q, ¬ (q ∈ X ∧ q ∈ Y)) ∧ (∀ q, ¬ (q ∈ X ∧ q ∈ Zr)) ∧ (∀ q, ¬ (q ∈ Y ∧ q ∈ Zr)) ∧
  NoDup (X ++ Y ++ Zr).
Proof.
  intros Hx Hy. unfold factorize_registers.
  assert (Hcover : range 0 nx ++ range nx (nx + ny)
                     ++ range (nx + ny) (nx + ny + (nx + ny + 1))
                   = range 0 (nx + ny + nx + ny + 1)).
  { rewrite (range_app 0 nx (nx + ny + nx + ny + 1)) by lia.
    rewrite (range_app nx (nx + ny) (nx + ny + nx + ny + 1)) by lia.
    do 3 f_equal. lia. }
  split; [exact Hcover|].
  split; [rewrite !len_range; lia|].
  split; [intros i Hi; rewrite lookup_range by lia; f_equal; lia|].
  split; [intros i Hi; rewrite lookup_range by lia; done|].
  split; [intros i Hi; rewrite lookup_range by lia; done|].
  split; [intros q; rewrite elem_of_range; lia|].
  split; [intros q; rewrite elem_of_range; lia|].
  split; [intros q; rewrite elem_of_range; lia|].
  split; [intros q; rewrite !elem_of_range; lia|].
  split; [intros q; rewrite !elem_of_range; lia|].
  split; [intros q; rewrite !elem_of_range; lia|].
  rewrite Hcover. apply NoDup_seqZ.
Qed.

Lemma factorize_registers_partition_witness :
  let '(X, Y, Zr) := factorize_registers 4 4 in
  X ++ Y ++ Zr = range 0 (4 + 4 + 4 + 4 + 1) ∧
  (len X = 4 ∧ len Y = 4 ∧ len Zr = 4 + 4 + 1) ∧
  (∀ i : nat, Z.of_nat i < 4 → X !! i = Some (Z.of_nat i)) ∧
  (∀ i : nat, Z.of_nat i < 4 → Y !! i = Some (4 + Z.of_nat i)) ∧
  (∀ i : nat, Z.of_nat i < 4 + 4 + 1 → Zr !! i = Some (4 + 4 + Z.of_nat i)) ∧
  (∀ q, q ∈ X ↔ 0 ≤ q < 4) ∧
  (∀ q, q ∈ Y ↔ 4 ≤ q < 4 + 4) ∧
  (∀ q, q ∈ Zr ↔ 4 + 4 ≤ q < 4 + 4 + 4 + 4 + 1) ∧
  (∀ q, ¬ (q ∈ X ∧ q ∈ Y)) ∧ (∀ q, ¬ (q ∈ X ∧ q ∈ Zr)) ∧ (∀ q, ¬ (q ∈ Y ∧ q ∈ Zr)) ∧
  NoDup (X ++ Y ++ Zr).
Proof. apply (factorize_registers_partition 4 4); lia. Defined.

(** The frame of a returning call holds exactly these registers. *)
Lemma factorize_locals_registers (N K nx ny : Z) (h h' : store) (fr : factorize_frame) :
  factorize_locals N K nx ny h = (Returns fr, h') →
  (f_X fr, f_Y fr, f_Z fr) = factorize_registers nx ny.
Proof.
  destruct (factorize_Nj N) as [Nj|e] eqn:HNj.
  - rewrite (factorize_locals_run _ _ _ _ _ _ HNj). by intros [= <- _].
  - unfold factorize_locals, factorize_registers, bind, lift. by rewrite HNj.
Qed.

(** ** Register sizes are not checked *)

(** C3, counterexample: with nx = 0 the call of factorize does not fail; it
    returns a new (empty) circuit. *)
Lemma factorize_zero_size_returns :
  factorize 143 8 0 4 [] = (Returns 0%nat, [[]]) ∧
  ¬ (∃ e, (factorize 143 8 0 4 []).1 = Raises e).
Proof. split; [reflexivity|]. intros [e He]. vm_compute in He. discriminate. Qed.

(** C3, amended: factorize holds no check of the register sizes.  For every
    N >= 0 and every K, a call with nx <= 0 or ny <= 0 returns a circuit as any
    other call does; the register of a size <= 0 is the empty index list. *)
Theorem factorize_accepts_any_size (N K nx ny : Z) (h : store) :
  0 ≤ N → nx ≤ 0 ∨ ny ≤ 0 →
  factorize N K nx ny h = (Returns (length h), h ++ [[]]) ∧
  built (factorize N K nx ny) h = Some [] ∧
  (nx ≤ 0 → (factorize_registers nx ny).1.1 = []) ∧
  (ny ≤ 0 → (factorize_registers nx ny).1.2 = []).
Proof.
  intros HN _.
  assert (Hrun : factorize N K nx ny h = (Returns (length h), h ++ [[]])).
  { rewrite factorize_run. by rewrite (proj2 (Z.leb_le 0 N) HN). }
  split; [exact Hrun|].
  split; [unfold built; rewrite Hrun; apply list_lookup_middle; done|].
  unfold factorize_registers, range; simpl.
  split; intros Hle; apply seqZ_nil; lia.
Qed.

Lemma factorize_accepts_any_size_witness :
  factorize 143 8 0 4 [] = (Returns (length ([] : store)), [] ++ [[]]) ∧
  built (factorize 143 8 0 4) [] = Some [] ∧
  (0 ≤ 0 → (factorize_registers 0 4).1.1 = []) ∧
  (4 ≤ 0 → (factorize_registers 0 4).1.2 = []).
Proof. apply (factorize_accepts_any_size 143 8 0 4 []); lia. Defined.

(** ** The unfinished constructions *)

(** Whatever the target, [oracle] returns a new circuit without instructions. *)
Lemma oracle_run (bitstring : bitarray) (h : store) :
  oracle bitstring h = (Returns (length h), h ++ [[]]).
Proof. reflexivity. Qed.

(** Without a callback, [grover] returns a new circuit without instructions. *)
Lemma grover_no_callback (iterations : Z) (oracle_circ : loc) (h : store) :
  (oracle_circ < length h)%nat →
  grover iterations oracle_circ None h = (Returns (length h), h ++ [[]]).
Proof.
  intros Hoc. destruct (lookup_lt_is_Some_2 _ _ Hoc) as [ins Hins].
  unfold grover.
  step (num_qubits_run _ _ _ Hins).
  step (Circuit_new_run h).
  by step (for_pass (range 0 iterations) (h ++ [[]])).
Qed.

(** C4: on the code the oracle and the diffusion operator are missing from the
    result.  One iteration over the oracle that marks 11, without a callback:
    grover returns the empty circuit, where the specification has the oracle
    followed by the diffusion operator on its two qubits. *)
Theorem grover_omits_oracle_and_diffusion (diffusion : Z → Circuit) :
  let oracle_ins := [gate (Control 1 GateZ) [0; 1]] in
  built (grover 1 0%nat None) [oracle_ins] = Some [] ∧
  grover_spec diffusion 1 oracle_ins None = oracle_ins ++ diffusion 2 ∧
  built (grover 1 0%nat None) [oracle_ins]
    ≠ Some (grover_spec diffusion 1 oracle_ins None).
Proof.
  assert (Hspec : grover_spec diffusion 1 [gate (Control 1 GateZ) [0; 1]] None
                  = [gate (Control 1 GateZ) [0; 1]] ++ diffusion 2).
  { unfold grover_spec. simpl. by rewrite app_nil_r. }
  split; [reflexivity|]. split; [exact Hspec|].
  rewrite Hspec. discriminate.
Qed.

(** C5: on the code the oracle holds no gate.  For the target 10 the
    specification has an X gate on qubit 1, the phase flip controlled on both
    qubits and the X gate again; oracle returns the empty circuit. *)
Theorem oracle_holds_no_gate :
  built (oracle [true; false]) [] = Some [] ∧
  oracle_spec [true; false] =
    [gate GateX [1]; gate (Control 1 GateZ) [0; 1]; gate GateX [1]] ∧
  built (oracle [true; false]) [] ≠ Some (oracle_spec [true; false]).
Proof. repeat split; [reflexivity..|discriminate]. Qed.

(** C6: on the code no phase gate is added.  For X = [0], Y = [1] and
    Z = [2; 3; 4] the specification has the three gates of the triples
    (j, i, k) = (0, 0, 0), (0, 0, 1), (0, 0, 2), with angles pi, pi/2 and pi/4;
    PhiMultiply returns the empty circuit. *)
Theorem PhiMultiply_holds_no_gate :
  built (PhiMultiply [0] [1] [2; 3; 4]) [] = Some [] ∧
  PhiMultiply_spec [0] [1] [2; 3; 4] =
    [gate (Control 2 (GateP np_pi)) [0; 1; 2];
     gate (Control 2 (GateP (np_pi / 2)%float)) [0; 1; 3];
     gate (Control 2 (GateP (np_pi / 4)%float)) [0; 1; 4]] ∧
  built (PhiMultiply [0] [1] [2; 3; 4]) []
    ≠ Some (PhiMultiply_spec [0] [1] [2; 3; 4]).
Proof.
  assert (Hcode : built (PhiMultiply [0] [1] [2; 3; 4]) [] = Some []).
  { vm_compute. reflexivity. }
  split; [exact Hcode|]. split; [vm_compute; reflexivity|].
  rewrite Hcode. vm_compute. discriminate.
Qed.

(** ** The guard of [PhiMultiply], lines 316-318 *)

Lemma for_returns {A : Type} (l : list A) (body : A → Py unit) (h : list Circuit) :
  (∀ x, x ∈ l → body x h = (Returns tt, h)) →
  for_ l body h = (Returns tt, h).
Proof.
  induction l as [|x l IH]; intros Hbody; [done|].
  simpl. step (Hbody x (list_elem_of_here _ _)).
  apply IH. intros y Hy. apply Hbody. by apply list_elem_of_further.
Qed.

(** The angle and the guard depend on the exponent only. *)
Lemma PhiMultiply_angle_exponent (k j i : Z) :
  PhiMultiply_angle k j i = PhiMultiply_angle (k - j - i + 1 - 1) 0 0.
Proof. unfold PhiMultiply_angle. do 2 f_equal. lia. Qed.

Lemma PhiMultiply_guard_exponent (k j i : Z) :
  PhiMultiply_guard k j i = PhiMultiply_guard (k - j - i + 1 - 1) 0 0.
Proof. unfold PhiMultiply_guard. by rewrite PhiMultiply_angle_exponent. Qed.

(** All exponents from 1 to 1023, by evaluation in binary64. *)
Lemma guard_holds_table : forallb guard_holds (range 1 1024) = true.
Proof. vm_compute. reflexivity. Qed.

Lemma guard_holds_finite (e : Z) : 1 ≤ e ≤ 1023 → guard_holds e = true.
Proof.
  intros He. pose proof guard_holds_table as Htable.
  rewrite forallb_forall in Htable. apply Htable.
  apply list_elem_of_In, elem_of_range. lia.
Qed.

Lemma PhiMultiply_guard_finite (k j i : Z) :
  1 ≤ k - j - i + 1 ≤ 1023 →
  ∃ a, PhiMultiply_angle k j i = Returns a ∧
       (0 <? a)%float = true ∧ (a <=? np_pi)%float = true ∧
       PhiMultiply_guard k j i = Returns true.
Proof.
  intros He. pose proof (guard_holds_finite _ He) as Hg. unfold guard_holds in Hg.
  rewrite <- PhiMultiply_angle_exponent, <- PhiMultiply_guard_exponent in Hg.
  destruct (PhiMultiply_angle k j i) as [a|]; [|done].
  destruct (PhiMultiply_guard k j i) as [[|]|]; try done.
  apply andb_prop in Hg as [H0 Hpi]. by exists a.
Qed.

Lemma PhiMultiply_guard_overflow (k j i : Z) :
  1024 ≤ k - j - i + 1 → PhiMultiply_guard k j i = Raises OverflowError.
Proof.
  intros He. unfold PhiMultiply_guard, PhiMultiply_angle, float_pow2.
  by rewrite (proj2 (Z.leb_le _ _) He).
Qed.

(** With a Z register of at most 1023 qubits the three loops run to their
    end and the call returns its (empty) circuit. *)
Lemma PhiMultiply_returns (X Y Zr : list Z) (h : list Circuit) :
  len Zr ≤ 1023 → PhiMultiply X Y Zr h = (Returns (length h), h ++ [[]]).
Proof.
  intros Hnz. unfold PhiMultiply.
  step (Circuit_new_run h).
  erewrite bind_returns; [reflexivity|].
  apply for_returns. intros j Hj. apply elem_of_range in Hj.
  apply for_returns. intros i Hi. apply elem_of_range in Hi.
  apply for_returns. intros k Hk. apply elem_of_range in Hk.
  destruct (PhiMultiply_guard_finite k j i) as (a & _ & _ & _ & Hg); [lia|].
  unfold bind, lift. by rewrite Hg.
Qed.

(** C9, counterexample: X = [0], Y = [1] and a Z register of 1024 qubits.  The
    triple (j, i, k) = (0, 0, 1023) is in the loop range, its exponent is
    1024, and 2.0**1024 raises OverflowError: the guard has no value there and
    the call ends with the exception. *)
Lemma PhiMultiply_overflow :
  (0 ≤ 0 < len [0] ∧ 0 ≤ 0 < len [1] ∧ 0 + 0 ≤ 1023 < len (range 2 1026)) ∧
  PhiMultiply_guard 1023 0 0 = Raises OverflowError ∧
  (PhiMultiply [0] [1] (range 2 1026) []).1 = Raises OverflowError.
Proof. split; [done|]. split; vm_compute; reflexivity. Qed.

(** C9, amended: for every triple of the loop range, j in [0, nx), i in
    [0, ny), k in [i+j, nz), the exponent k - j - i + 1 is at least 1 and the
    guard never evaluates to false: the skip branch is unreachable.  When the
    exponent is at most 1023 the angle is computed, lies in (0, pi], and the
    guard is true; from exponent 1024 on, 2.0**exponent raises OverflowError.
    With nz <= 1023 every triple passes the guard and the call returns. *)
Theorem PhiMultiply_guard_in_range (X Y Zr : list Z) (j i k : Z) :
  0 ≤ j < len X → 0 ≤ i < len Y → i + j ≤ k < len Zr →
  1 ≤ k - j - i + 1 ∧
  PhiMultiply_guard k j i ≠ Returns false ∧
  (k - j - i + 1 ≤ 1023 →
     ∃ a, PhiMultiply_angle k j i = Returns a ∧
          (0 <? a)%float = true ∧ (a <=? np_pi)%float = true ∧
          PhiMultiply_guard k j i = Returns true) ∧
  (1024 ≤ k - j - i + 1 → PhiMultiply_guard k j i = Raises OverflowError) ∧
  (len Zr ≤ 1023 → ∀ h, PhiMultiply X Y Zr h = (Returns (length h), h ++ [[]])).
Proof.
  intros Hj Hi Hk.
  split; [lia|]. split; [|split; [|split]].
  - destruct (Z.le_gt_cases (k - j - i + 1) 1023) as [Hlo|Hhi].
    + destruct (PhiMultiply_guard_finite k j i) as (a & _ & _ & _ & Hg); [lia|].
      by rewrite Hg.
    + rewrite PhiMultiply_guard_overflow by lia. done.
  - intros Hlo. apply PhiMultiply_guard_finite. lia.
  - apply PhiMultiply_guard_overflow.
  - intros Hnz h. by apply PhiMultiply_returns.
Qed.

Lemma PhiMultiply_guard_in_range_witness :
  1 ≤ 2 - 0 - 0 + 1 ∧
  PhiMultiply_guard 2 0 0 ≠ Returns false ∧
  (2 - 0 - 0 + 1 ≤ 1023 →
     ∃ a, PhiMultiply_angle 2 0 0 = Returns a ∧
          (0 <? a)%float = true ∧ (a <=? np_pi)%float = true ∧
          PhiMultiply_guard 2 0 0 = Returns true) ∧
  (1024 ≤ 2 - 0 - 0 + 1 → PhiMultiply_guard 2 0 0 = Raises OverflowError) ∧
  (len [2; 3; 4] ≤ 1023 →
     ∀ h, PhiMultiply [0] [1] [2; 3; 4] h = (Returns (length h), h ++ [[]])).
Proof.
  apply (PhiMultiply_guard_in_range [0] [1] [2; 3; 4] 0 0 2); unfold len; simpl; lia.
Defined.

(** ** Construction calls and the store *)

Lemma constructs_in_twice (m : Py loc) (o : outcome Circuit) (h : list Circuit) :
  constructs_in h m o → constructs_in (m h).2 m o → same_fresh_results m h.
Proof.
  unfold constructs_in, same_fresh_results.
  destruct (m h) as [r1 h1]; simpl. intros (g1 & -> & H1).
  destruct (m (h ++ g1)) as [r2 h2]; simpl. intros (g2 & -> & H2).
  split; [by eexists _, _|].
  destruct o as [c|e], r1 as [l1|e1], r2 as [l2|e2]; try done; [|congruence].
  destruct H1 as [Hl1 Hc1], H2 as [Hl2 Hc2].
  pose proof (lookup_lt_Some _ _ _ Hc1) as Hlt.
  repeat split; [done|done|lia|].
  exists c. repeat split; [done| |done].
  by rewrite lookup_app_l.
Qed.

(** The callback of [amplitude_callback]: a new circuit either way; the
    probe is pushed on it unless the index is negative. *)
Lemma amplitude_callback_run (bitstring : bitarray) (i : Z) (h : list Circuit) :
  amplitude_callback bitstring i h =
    if i <? 0 then (Raises ValueError, h ++ [[]])
    else (Returns (length h),
          h ++ [[mkInstruction (Amplitude bitstring) [] [] [i]]]).
Proof.
  unfold amplitude_callback. step (Circuit_new_run h).
  unfold push_z. destruct (i <? 0).
  - by apply bind_raises.
  - erewrite bind_returns;
      [|apply (Circuit_extend_run _ []); by apply list_lookup_middle].
    by rewrite insert_app_r_alt, Nat.sub_diag.
Qed.

Lemma amplitude_callback_constructs (bitstring : bitarray) (i : Z) :
  constructs (amplitude_callback bitstring i)
    (if i <? 0 then Raises ValueError
     else Returns [mkInstruction (Amplitude bitstring) [] [] [i]]).
Proof.
  intros h. unfold constructs_in. rewrite amplitude_callback_run.
  destruct (i <? 0); simpl.
  - by eexists.
  - eexists. split; [reflexivity|]. split; [done|]. by apply list_lookup_middle.
Qed.

(** [amplitude_callback(bitstring)] is a callback of that kind, whatever the
    store and the number of iterations. *)
Lemma amplitude_callback_adds (bitstring : bitarray) (h : list Circuit)
    (iterations : Z) :
  callback_adds h iterations (Some (amplitude_callback bitstring))
    (λ i, [mkInstruction (Amplitude bitstring) [] [] [i]]).
Proof.
  intros i g Hi. rewrite amplitude_callback_run.
  rewrite (proj2 (Z.ltb_ge i 0)) by lia.
  eexists _, _. split; [reflexivity|]. by apply list_lookup_middle.
Qed.

(** So is a callback that hands back a circuit of the store [h], such as the
    oracle circuit: it adds nothing. *)
Lemma existing_circuit_callback_adds (c : nat) (ins : Circuit) (h : list Circuit)
    (iterations : Z) :
  h !! c = Some ins →
  callback_adds h iterations (Some (λ _, ret c)) (λ _, ins).
Proof.
  intros Hc i g Hi. exists c, []. split; [by rewrite app_nil_r|].
  rewrite app_nil_r, lookup_app_l; [done|]. by eapply lookup_lt_Some.
Qed.


Section grover_with_callback.
Context (callback : option (Z → Py loc)) (val : Z → Circuit).
Context (h : list Circuit) (iterations : Z).
Hypothesis callback_ok : callback_adds h iterations callback val.

(** The body of the loop of [grover] whose circuit is at [length h]. *)
Let body : Z → Py unit :=
  λ i, match callback with
       | Some cb => let* c := cb i in append (length h) c
       | None => ret tt
       end.

(** One iteration adds the callback's circuit to the one under
    construction; the objects the callback made come after it. *)
Lemma grover_body_run (i : Z) (acc : Circuit) (g : list Circuit) :
  0 ≤ i < iterations →
  ∃ g', body i (h ++ acc :: g) = (Returns tt, h ++ (acc ++ val i) :: g').
Proof using callback_ok.
  intros Hi. unfold body. destruct callback as [cb|]; simpl in callback_ok.
  - destruct (callback_ok i (acc :: g) Hi) as (lc & g1 & Hrun & Hlc).
    rewrite <- app_assoc in Hrun, Hlc. simpl in Hrun, Hlc.
    exists (g ++ g1). step Hrun.
    rewrite (append_run _ _ acc (val i)); [|by apply list_lookup_middle|done].
    by rewrite insert_app_r_alt, Nat.sub_diag.
  - exists g. by rewrite callback_ok, app_nil_r.
Qed.

(** The loop: the circuit under construction receives the callback's
    circuits in the order of the indices. *)
Lemma grover_loop (l : list Z) :
  Forall (λ i, 0 ≤ i < iterations) l →
  ∀ (acc : Circuit) (g : list Circuit), ∃ g',
    for_ l body (h ++ acc :: g)
    = (Returns tt, h ++ (acc ++ concat (map val l)) :: g').
Proof using callback_ok.
  induction 1 as [|i l Hi _ IH]; intros acc g.
  - exists g. simpl. by rewrite app_nil_r.
  - destruct (grover_body_run i acc g Hi) as [g1 Hbody].
    destruct (IH (acc ++ val i) g1) as [g' Hrest]. exists g'.
    simpl for_. step Hbody. rewrite Hrest. simpl. by rewrite <- app_assoc.
Qed.

(** [grover] constructs the concatenation of its callback's circuits. *)
Lemma grover_constructs (oracle_circ : nat) :
  (oracle_circ < length h)%nat →
  constructs_in h (grover iterations oracle_circ callback)
    (Returns (concat (map val (range 0 iterations)))).
Proof using callback_ok.
  intros Hoc. destruct (lookup_lt_is_Some_2 _ _ Hoc) as [ins Hins].
  unfold constructs_in, grover.
  step (num_qubits_run _ _ _ Hins).
  step (Circuit_new_run h).
  destruct (grover_loop (range 0 iterations)) with (acc := @nil Instruction)
    (g := @nil (list Instruction)) as [g' Hloop].
  { apply Forall_forall. intros i Hi%elem_of_range. lia. }
  step Hloop. simpl.
  eexists. split; [reflexivity|]. split; [done|]. by apply list_lookup_middle.
Qed.
End grover_with_callback.





(** ** Reading the encoding back *)

(** [int(s, 2)] on the characters of a bitstring: Horner's rule from the
    first position on. *)
Lemma int_base2_fold (bs : list bool) (a : Z) :
  fold_left int_base2_step (to01 bs) (Returns a)
  = Returns (fold_left (λ acc (b : bool), 2 * acc + Z.b2z b) bs a).
Proof.
  revert a. induction bs as [|b bs IH]; intros a; [done|].
  simpl. destruct b; simpl; rewrite IH; do 2 f_equal; lia.
Qed.

Lemma horner_reverse (l : list Z) :
  Forall (λ b, b = 0 ∨ b = 1) l →
  fold_left (λ acc (b : bool), 2 * acc + Z.b2z b) (reverse (measured l)) 0
  = lsb_value l.
Proof.
  induction 1 as [|b l Hb _ IH]; [done|].
  simpl. rewrite reverse_cons, fold_left_app, IH. simpl.
  destruct Hb as [-> | ->]; simpl; lia.
Qed.

(** X1: for every N >= 0 the digits of Nj, weighted by 2^position, sum to N,
    and the bitstring read from its last position to its first decodes to N:
    the digits are right, the result cell reads them in the other order. *)
Theorem reversed_reading_recovers_N (N : Z) :
  0 ≤ N →
  ∃ Nj, factorize_Nj N = Returns Nj ∧
        lsb_value Nj = N ∧
        decode (reverse (measured Nj)) = Returns N.
Proof.
  intros HN. destruct N as [|p|p]; [by exists [0]| |lia].
  exists (pos_bits p). split; [apply factorize_Nj_pos|].
  split; [apply pos_bits_value|].
  unfold decode, int_base2.
  destruct (to01 (reverse (measured (pos_bits p)))) as [|c s] eqn:Hs.
  - apply (f_equal length) in Hs. unfold to01, measured in Hs.
    rewrite length_map, length_reverse, length_map in Hs.
    destruct p; discriminate.
  - rewrite <- Hs, int_base2_fold, horner_reverse by apply pos_bits_binary.
    by rewrite pos_bits_value.
Qed.

Lemma reversed_reading_recovers_N_witness :
  ∃ Nj, factorize_Nj 6 = Returns Nj ∧
        lsb_value Nj = 6 ∧
        decode (reverse (measured Nj)) = Returns 6.
Proof. apply (reversed_reading_recovers_N 6). lia. Defined.

(** X2: a negative N ends the call of factorize with ValueError in the
    comprehension of line 361, on the character b that bin(N)[2:] then starts
    with, before any circuit exists: the store is unchanged. *)
Theorem factorize_negative_raises (N K nx ny : Z) (h : list Circuit) :
  N < 0 → factorize N K nx ny h = (Raises ValueError, h).
Proof.
  intros HN. destruct N as [|p|p]; try lia.
  unfold factorize, factorize_locals, factorize_registers.
  erewrite bind_raises; [reflexivity|].
  apply bind_raises. unfold lift. by rewrite factorize_Nj_neg.
Qed.

Lemma factorize_negative_raises_witness :
  factorize (-5) 8 4 4 [] = (Raises ValueError, []).
Proof. apply (factorize_negative_raises (-5) 8 4 4 []). lia. Defined.

(** ** The outcome of [PhiMultiply] on all registers *)

Lemma for_raises {A : Type} (l1 l2 : list A) (x : A) (body : A → Py unit)
    (h h' : list Circuit) (e : exn) :
  (∀ y, y ∈ l1 → body y h = (Returns tt, h)) →
  body x h = (Raises e, h') →
  for_ (l1 ++ x :: l2) body h = (Raises e, h').
Proof.
  induction l1 as [|y l1 IH]; intros Hbefore Hx; simpl.
  - by apply bind_raises.
  - step (Hbefore y (list_elem_of_here _ _)).
    apply IH; [|done]. intros z Hz. apply Hbefore. by apply list_elem_of_further.
Qed.

Lemma range_cons (a b : Z) : a < b → range a b = a :: range (a + 1) b.
Proof.
  intros Hab. unfold range. rewrite seqZ_cons by lia. do 2 f_equal; lia.
Qed.

(** The innermost loop at i = j = 0 over a Z register of 1024 qubits or more
    ends at k = 1023. *)
Lemma PhiMultiply_inner_overflow (nz : Z) (h : list Circuit) :
  1024 ≤ nz →
  for_ (range 0 nz) (λ k,
    let* g := lift (PhiMultiply_guard k 0 0) in
    if g then pass else ret tt) h
  = (Raises OverflowError, h).
Proof.
  intros Hnz.
  rewrite (range_app 0 1023 nz), (range_cons 1023 nz) by lia.
  apply for_raises.
  - intros k Hk. apply elem_of_range in Hk.
    destruct (PhiMultiply_guard_finite k 0 0) as (a & _ & _ & _ & Hg); [lia|].
    unfold bind, lift. by rewrite Hg.
  - unfold bind, lift. by rewrite PhiMultiply_guard_overflow.
Qed.

Lemma PhiMultiply_run (X Y Zr : list Z) (h : list Circuit) :
  PhiMultiply X Y Zr h =
    (if (1 <=? len X) && (1 <=? len Y) && (1024 <=? len Zr)
     then Raises OverflowError else Returns (length h),
     h ++ [[]]).
Proof.
  destruct (1024 <=? len Zr) eqn:Hnz;
    [|rewrite andb_false_r; apply PhiMultiply_returns; lia].
  apply Z.leb_le in Hnz. rewrite andb_true_r.
  unfold PhiMultiply. step (Circuit_new_run h).
  destruct (1 <=? len X) eqn:Hnx; simpl.
  - apply Z.leb_le in Hnx. destruct (1 <=? len Y) eqn:Hny.
    + apply Z.leb_le in Hny. apply bind_raises.
      rewrite (range_cons 0 (len X)) by lia.
      apply (for_raises []); [by intros y Hy%elem_of_nil|].
      rewrite (range_cons 0 (len Y)) by lia.
      apply (for_raises []); [by intros y Hy%elem_of_nil|].
      by apply PhiMultiply_inner_overflow.
    + apply Z.leb_gt in Hny. erewrite bind_returns; [reflexivity|].
      apply for_returns. intros j _.
      unfold range. by rewrite seqZ_nil by lia.
  - apply Z.leb_gt in Hnx. erewrite bind_returns; [reflexivity|].
    unfold range. by rewrite seqZ_nil by lia.
Qed.

(** X4: PhiMultiply ends with OverflowError exactly when X and Y are not
    empty and Z has 1024 entries or more; in every other case it returns a new
    empty circuit.  Either way the new circuit object is the only change to
    the store.  Multiply, which holds no loop, returns a new empty circuit on
    all registers. *)
Theorem PhiMultiply_outcome (X Y Zr : list Z) (h : list Circuit) :
  PhiMultiply X Y Zr h =
    (if (1 <=? len X) && (1 <=? len Y) && (1024 <=? len Zr)
     then Raises OverflowError else Returns (length h),
     h ++ [[]]) ∧
  Multiply X Y Zr h = (Returns (length h), h ++ [[]]).
Proof. split; [apply PhiMultiply_run|reflexivity]. Qed.

(** ** [grover] and its callback *)

Lemma concat_map_singleton {A B : Type} (f : A → B) (l : list A) :
  concat (map (λ x, [f x]) l) = map f l.
Proof. induction l as [|x l IH]; [done|]. simpl. by rewrite IH. Qed.

(** X5: with amplitude_callback(bitstring) as callback, grover returns a
    circuit of exactly max(0, iterations) Amplitude(bitstring) instructions,
    the one of iteration i on z-register cell i, in the order of the
    iterations; it holds no gate on any qubit, and no object of the store the
    call started in is changed. *)
Theorem grover_amplitude_probes (iterations : Z) (oracle_circ : nat)
    (bitstring : bitarray) (h : list Circuit) :
  (oracle_circ < length h)%nat →
  let probes := map (λ i, mkInstruction (Amplitude bitstring) [] [] [i])
                    (range 0 iterations) in
  built (grover iterations oracle_circ (Some (amplitude_callback bitstring))) h
    = Some probes ∧
  length probes = Z.to_nat iterations ∧
  Forall (λ ins, qubits ins = []) probes ∧
  ∃ g, (grover iterations oracle_circ (Some (amplitude_callback bitstring)) h).2
         = h ++ g.
Proof.
  intros Hoc probes.
  pose proof (grover_constructs (Some (amplitude_callback bitstring))
                (λ i, [mkInstruction (Amplitude bitstring) [] [] [i]]) h iterations
                (amplitude_callback_adds bitstring h iterations)
                oracle_circ Hoc) as (g & Hstore & Hres).
  rewrite concat_map_singleton in Hres. fold probes in Hres.
  split; [|split; [|split]].
  - unfold built.
    destruct (grover iterations oracle_circ _ h) as [[l|e] h1]; simpl in *; [|done].
    subst h1. by destruct Hres.
  - unfold probes, range. rewrite length_map, length_seqZ. lia.
  - unfold probes. apply Forall_forall. intros ins Hin.
    apply list_elem_of_fmap in Hin as (i & -> & _). reflexivity.
  - by exists g.
Qed.

Lemma grover_amplitude_probes_witness :
  let probes := map (λ i, mkInstruction (Amplitude [true; false]) [] [] [i])
                    (range 0 25) in
  built (grover 25 0%nat (Some (amplitude_callback [true; false])))
        [[gate GateZ [0]]]
    = Some probes ∧
  length probes = Z.to_nat 25 ∧
  Forall (λ ins, qubits ins = []) probes ∧
  ∃ g, (grover 25 0%nat (Some (amplitude_callback [true; false]))
          [[gate GateZ [0]]]).2
         = [[gate GateZ [0]]] ++ g.
Proof.
  apply (grover_amplitude_probes 25 0%nat [true; false] [[gate GateZ [0]]]).
  simpl. lia.
Defined.

(** X6: with iterations <= 0 the callback is never called: whatever the
    callback is, grover returns a new empty circuit and changes nothing
    else. *)
Theorem grover_no_iteration (iterations : Z) (oracle_circ : nat)
    (callback : option (Z → Py loc)) (h : list Circuit) :
  iterations ≤ 0 →
  (oracle_circ < length h)%nat →
  grover iterations oracle_circ callback h = (Returns (length h), h ++ [[]]).
Proof.
  intros Hit Hoc. destruct (lookup_lt_is_Some_2 _ _ Hoc) as [ins Hins].
  unfold grover.
  step (num_qubits_run _ _ _ Hins).
  step (Circuit_new_run h).
  unfold range. by rewrite seqZ_nil by lia.
Qed.

Lemma grover_no_iteration_witness :
  grover (-3) 0%nat (Some (shared_callback 1%nat)) [[gate GateZ [0]]; []]
  = (Returns (length [[gate GateZ [0]]; ([] : Circuit)]),
     [[gate GateZ [0]]; []] ++ [[]]).
Proof.
  apply (grover_no_iteration (-3) 0%nat (Some (shared_callback 1%nat))
           [[gate GateZ [0]]; []]); [lia|simpl; lia].
Defined.

(** X7: an exception of the callback is not caught.  With iterations >= 1,
    when the callback raises at index 0, grover ends with the same exception,
    in the store the callback left; the new circuit is not returned. *)
Theorem grover_callback_raises (iterations : Z) (oracle_circ : nat)
    (cb : Z → Py loc) (e : exn) (h h' : list Circuit) :
  1 ≤ iterations →
  (oracle_circ < length h)%nat →
  cb 0 (h ++ [[]]) = (Raises e, h') →
  grover iterations oracle_circ (Some cb) h = (Raises e, h').
Proof.
  intros Hit Hoc Hcb. destruct (lookup_lt_is_Some_2 _ _ Hoc) as [ins Hins].
  unfold grover.
  step (num_qubits_run _ _ _ Hins).
  step (Circuit_new_run h).
  apply bind_raises. rewrite (range_cons 0 iterations) by lia.
  apply (for_raises []); [by intros y Hy%elem_of_nil|].
  by apply bind_raises.
Qed.

Lemma grover_callback_raises_witness :
  grover 25 0%nat (Some (λ i, factorize (i - 1) 0 1 1)) [[gate GateZ [0]]]
  = (Raises ValueError, [[gate GateZ [0]]; []]).
Proof.
  apply (grover_callback_raises 25 0%nat (λ i, factorize (i - 1) 0 1 1)
           ValueError [[gate GateZ [0]]] [[gate GateZ [0]]; []]);
    [lia|simpl; lia|reflexivity].
Defined.

(** The loop of [grover] when the callback hands back the oracle circuit
    itself: each iteration copies the oracle's instructions. *)
Lemma grover_loop_oracle (oracle_circ : nat) (ins : Circuit) (h : list Circuit)
    (l : list Z) :
  h !! oracle_circ = Some ins →
  ∀ acc : Circuit,
    for_ l (λ i, let* c := ret oracle_circ in append (length h) c) (h ++ [acc])
    = (Returns tt, h ++ [acc ++ concat (replicate (length l) ins)]).
Proof.
  intros Hins. induction l as [|i l IH]; intros acc.
  - simpl. by rewrite app_nil_r.
  - simpl for_.
    assert (Hbody : (let* c := ret oracle_circ in append (length h) c) (h ++ [acc])
                    = (Returns tt, h ++ [acc ++ ins])).
    { rewrite bind_ret_l.
      rewrite (append_run _ _ acc ins); [|by apply list_lookup_middle|].
      - by rewrite insert_app_r_alt, Nat.sub_diag.
      - rewrite lookup_app_l; [done|]. by eapply lookup_lt_Some. }
    step Hbody. rewrite IH. simpl. by rewrite <- app_assoc.
Qed.

(** X8: append copies instructions and shares no object.  With a callback
    that returns the oracle circuit itself, grover returns a new circuit
    holding the oracle's instructions max(0, iterations) times over; the
    oracle circuit and every other object are unchanged, and the new circuit
    is the only object added. *)
Theorem grover_repeats_oracle (iterations : Z) (oracle_circ : nat)
    (ins : Circuit) (h : list Circuit) :
  h !! oracle_circ = Some ins →
  grover iterations oracle_circ (Some (λ _, ret oracle_circ)) h
  = (Returns (length h),
     h ++ [concat (replicate (Z.to_nat iterations) ins)]).
Proof.
  intros Hins. unfold grover.
  step (num_qubits_run _ _ _ Hins).
  step (Circuit_new_run h).
  step (grover_loop_oracle oracle_circ ins h (range 0 iterations) Hins []).
  unfold range. by rewrite length_seqZ, Z.sub_0_r.
Qed.

Lemma grover_repeats_oracle_witness :
  grover 2 0%nat (Some (λ _, ret 0%nat)) [[gate (Control 1 GateZ) [0; 1]]]
  = (Returns (length [[gate (Control 1 GateZ) [0; 1]]]),
     [[gate (Control 1 GateZ) [0; 1]]]
       ++ [concat (replicate (Z.to_nat 2) [gate (Control 1 GateZ) [0; 1]])]).
Proof.
  apply (grover_repeats_oracle 2 0%nat [gate (Control 1 GateZ) [0; 1]]
           [[gate (Control 1 GateZ) [0; 1]]]).
  reflexivity.
Defined.

(** ** The result-interpretation cell *)

Lemma msb_value_shift (b : bitarray) (a : Z) :
  fold_left (λ acc (x : bool), 2 * acc + Z.b2z x) b a
  = a * 2 ^ len b + msb_value b.
Proof.
  unfold msb_value, len. revert a. induction b as [|x b IH]; intros a.
  - simpl. lia.
  - simpl fold_left. rewrite IH, (IH (2 * 0 + Z.b2z x)).
    rewrite length_cons, Nat2Z.inj_succ, Z.pow_succ_r by lia. lia.
Qed.

Lemma msb_value_cons (x : bool) (b : bitarray) :
  msb_value (x :: b) = Z.b2z x * 2 ^ len b + msb_value b.
Proof.
  unfold msb_value at 1. simpl fold_left. rewrite msb_value_shift. lia.
Qed.

Lemma msb_value_bounds (b : bitarray) : 0 ≤ msb_value b < 2 ^ len b.
Proof.
  induction b as [|x b IH]; [done|].
  rewrite msb_value_cons. unfold len in *.
  rewrite length_cons, Nat2Z.inj_succ, Z.pow_succ_r by lia.
  destruct x; simpl Z.b2z; lia.
Qed.

Lemma msb_value_inj (b1 b2 : bitarray) :
  length b1 = length b2 → msb_value b1 = msb_value b2 → b1 = b2.
Proof.
  revert b2. induction b1 as [|x1 b1 IH]; intros [|x2 b2] Hlen Hval;
    try done.
  injection Hlen as Hlen. rewrite !msb_value_cons in Hval.
  pose proof (msb_value_bounds b1) as H1. pose proof (msb_value_bounds b2) as H2.
  unfold len in *. rewrite Hlen in *.
  destruct x1, x2; simpl Z.b2z in Hval; try lia;
    f_equal; apply IH; try done; lia.
Qed.

Lemma decode_nonempty (b : bitarray) : b ≠ [] → decode b = Returns (msb_value b).
Proof.
  intros Hb. unfold decode, int_base2.
  destruct (to01 b) as [|c s] eqn:Hs.
  - destruct b; [done|discriminate].
  - rewrite <- Hs. apply int_base2_fold.
Qed.

Lemma decode_raises (b : bitarray) (e : exn) :
  decode b = Raises e → b = [] ∧ e = ValueError.
Proof.
  destruct b as [|x b]; [by intros [= <-]|].
  by rewrite decode_nonempty.
Qed.

(** X9: the result cell's int(bitarray.to01(), 2) raises ValueError on the
    empty bitstring and on no other; on a bitstring of n >= 1 bits it returns
    an integer v with 0 <= v < 2^n. *)
Theorem decode_range (b : bitarray) :
  match decode b with
  | Returns v => b ≠ [] ∧ 0 ≤ v < 2 ^ len b
  | Raises e => b = [] ∧ e = ValueError
  end.
Proof.
  destruct b as [|x b]; [by split|].
  rewrite decode_nonempty by done. split; [done|]. apply msb_value_bounds.
Qed.

(** X10: on bitstrings of one length the decoding is injective: two measured
    bitstrings of the same length that decode to the same integer are the
    same bitstring. *)
Theorem decode_injective (b1 b2 : bitarray) (v : Z) :
  length b1 = length b2 →
  decode b1 = Returns v → decode b2 = Returns v → b1 = b2.
Proof.
  intros Hlen H1 H2.
  destruct b1 as [|x1 b1], b2 as [|x2 b2]; try done.
  rewrite decode_nonempty in H1, H2 by done.
  apply msb_value_inj; [done|]. congruence.
Qed.

Lemma decode_injective_witness : [true; false; true; true] = [true; false; true; true].
Proof.
  apply (decode_injective [true; false; true; true] [true; false; true; true] 11);
    reflexivity.
Defined.

(** X11: leading zeros are not seen by the decoding: a bitstring and the same
    bitstring behind a 0 bit decode to the same integer, so bitstrings of
    different lengths can collide. *)
Theorem decode_leading_zero (b : bitarray) :
  b ≠ [] → decode (false :: b) = decode b.
Proof.
  intros Hb. rewrite !decode_nonempty by done.
  rewrite msb_value_cons. simpl Z.b2z. by rewrite Z.mul_0_l, Z.add_0_l.
Qed.

Lemma decode_leading_zero_witness : decode [false; true; true] = decode [true; true].
Proof. apply (decode_leading_zero [true; true]). discriminate. Defined.

Lemma comprehension_returns {A B : Type} (f : A → outcome B) (g : A → B) (l : list A) :
  Forall (λ x, f x = Returns (g x)) l → comprehension f l = Returns (map g l).
Proof.
  induction 1 as [|x l Hx _ IH]; [done|]. simpl. by rewrite Hx, IH.
Qed.

Lemma comprehension_raises {A B : Type} (f : A → outcome B) (l : list A) (x : A) (e : exn) :
  x ∈ l → f x = Raises e → (∀ y e', f y = Raises e' → e' = e) →
  comprehension f l = Raises e.
Proof.
  intros Hin Hx Honly. induction l as [|y l IH]; [by apply elem_of_nil in Hin|].
  simpl. destruct (f y) as [b|e'] eqn:Hy; simpl.
  - apply elem_of_cons in Hin as [->|Hin]; [congruence|].
    by rewrite (IH Hin).
  - f_equal. by eapply Honly.
Qed.

Lemma sorted_results_nonempty (hist : list (bitarray * Z)) :
  Forall (λ kv, kv.1 ≠ []) hist →
  sorted_results hist = Returns (sorted (map msb_value (map fst hist))).
Proof.
  intros Hkeys. unfold sorted_results.
  rewrite (comprehension_returns decode msb_value); [done|].
  apply Forall_fmap. eapply Forall_impl; [exact Hkeys|].
  intros kv Hkv. by apply decode_nonempty.
Qed.

(** X12: when no measured bitstring is empty, sorted_results is computed and
    is the list of the decoded keys of the histogram, one entry per key, in
    ascending order. *)
Theorem sorted_results_sorted (hist : list (bitarray * Z)) :
  Forall (λ kv, kv.1 ≠ []) hist →
  ∃ l, sorted_results hist = Returns l ∧
       Sorted Z.le l ∧
       l ≡ₚ map msb_value (map fst hist) ∧
       length l = length hist.
Proof.
  intros Hkeys. eexists. split; [by apply sorted_results_nonempty|].
  unfold sorted. split; [apply Sorted_merge_sort; apply _|].
  split; [apply merge_sort_Permutation|].
  by rewrite merge_sort_Permutation, !length_map.
Qed.

Lemma sorted_results_sorted_witness :
  ∃ l, sorted_results [([true; false; true; true], 480); ([true; true; false; true], 520)]
         = Returns l ∧
       Sorted Z.le l ∧
       l ≡ₚ map msb_value
              (map fst [([true; false; true; true], 480); ([true; true; false; true], 520)]) ∧
       length l
         = length [([true; false; true; true], 480); ([true; true; false; true], 520)].
Proof.
  apply (sorted_results_sorted
           [([true; false; true; true], 480); ([true; true; false; true], 520)]).
  repeat constructor; discriminate.
Defined.

Lemma StronglySorted_le_lt (l : list Z) :
  StronglySorted Z.le l → NoDup l → StronglySorted Z.lt l.
Proof.
  induction 1 as [|x l Hl IH Hx]; intros Hnd; [constructor|].
  apply NoDup_cons in Hnd as [Hx_notin Hnd].
  constructor; [by apply IH|].
  apply Forall_forall. intros y Hy.
  rewrite Forall_forall in Hx. pose proof (Hx y Hy) as Hle.
  assert (x ≠ y) by (intros ->; done). lia.
Qed.

(** X13: when the keys of the histogram are distinct bitstrings of one length
    n >= 1 (the outcomes of measuring one register), sorted_results is
    strictly increasing: it has one entry per outcome, no integer twice, and
    every entry lies in [0, 2^n). *)
Theorem sorted_results_strict (hist : list (bitarray * Z)) (n : nat) :
  (1 ≤ n)%nat →
  NoDup (map fst hist) →
  Forall (λ kv, length kv.1 = n) hist →
  ∃ l, sorted_results hist = Returns l ∧
       Sorted Z.lt l ∧
       Forall (λ v, 0 ≤ v < 2 ^ Z.of_nat n) l ∧
       length l = length hist.
Proof.
  intros Hn Hnd Hlen.
  assert (Hkeys : Forall (λ kv : bitarray * Z, kv.1 ≠ []) hist).
  { eapply Forall_impl; [exact Hlen|]. intros [k c] Hk Hnil. simpl in *.
    subst k. simpl in Hk. lia. }
  eexists. split; [by apply sorted_results_nonempty|].
  unfold sorted.
  assert (Hnd' : NoDup (map msb_value (map fst hist))).
  { apply NoDup_fmap_2_strong; [|done].
    intros k1 k2 Hk1 Hk2 Hv. apply msb_value_inj; [|done].
    apply list_elem_of_fmap in Hk1 as ([k1' c1] & -> & Hin1).
    apply list_elem_of_fmap in Hk2 as ([k2' c2] & -> & Hin2).
    rewrite Forall_forall in Hlen.
    pose proof (Hlen _ Hin1) as Hl1. pose proof (Hlen _ Hin2) as Hl2.
    simpl in *. congruence. }
  split; [|split].
  - apply StronglySorted_Sorted, StronglySorted_le_lt.
    + apply StronglySorted_merge_sort; apply _.
    + by rewrite merge_sort_Permutation.
  - rewrite merge_sort_Permutation. apply Forall_fmap, Forall_fmap.
    eapply Forall_impl; [exact Hlen|]. intros [k c] Hk. simpl in *.
    pose proof (msb_value_bounds k) as Hb. unfold len in Hb. by rewrite Hk in Hb.
  - by rewrite merge_sort_Permutation, !length_map.
Qed.

Lemma sorted_results_strict_witness :
  ∃ l, sorted_results [([true; false; true; true], 480); ([true; true; false; true], 520)]
         = Returns l ∧
       Sorted Z.lt l ∧
       Forall (λ v, 0 ≤ v < 2 ^ Z.of_nat 4) l ∧
       length l
         = length [([true; false; true; true], 480); ([true; true; false; true], 520)].
Proof.
  apply (sorted_results_strict
           [([true; false; true; true], 480); ([true; true; false; true], 520)] 4).
  - lia.
  - apply NoDup_cons. split; [|apply NoDup_singleton].
    intros Hin%list_elem_of_singleton. discriminate.
  - repeat constructor.
Defined.

(** X14: one empty bitstring among the keys ends the cell: sorted_results
    raises ValueError and no list is produced. *)
Theorem sorted_results_empty_key (hist : list (bitarray * Z)) (shots : Z) :
  ([], shots) ∈ hist → sorted_results hist = Raises ValueError.
Proof.
  intros Hin. unfold sorted_results.
  rewrite (comprehension_raises decode (map fst hist) [] ValueError); [done| |done|].
  - apply list_elem_of_fmap. by exists ([], shots).
  - intros b e Hb. by apply decode_raises in Hb as [_ ->].
Qed.

Lemma sorted_results_empty_key_witness :
  sorted_results [([true; true], 7); ([], 3)] = Raises ValueError.
Proof.
  apply (sorted_results_empty_key [([true; true], 7); ([], 3)] 3).
  apply list_elem_of_further, list_elem_of_here.
Defined.

(** ** The encoding and the round trip, in general *)

Lemma lsb_value_inj (l1 l2 : list Z) :
  Forall (λ b, b = 0 ∨ b = 1) l1 → Forall (λ b, b = 0 ∨ b = 1) l2 →
  length l1 = length l2 → lsb_value l1 = lsb_value l2 → l1 = l2.
Proof.
  intros H1. revert l2. induction H1 as [|b1 l1 Hb1 _ IH];
    intros l2 H2 Hlen Hval; destruct H2 as [|b2 l2 Hb2 H2]; try done.
  injection Hlen as Hlen. simpl in Hval.
  assert (b1 = b2) by lia. subst b2.
  f_equal. apply IH; [done|done|lia].
Qed.

Lemma measured_reverse (l : list Z) : measured (reverse l) = reverse (measured l).
Proof.
  unfold measured. induction l as [|b l IH]; [done|].
  simpl. by rewrite !reverse_cons, map_app, IH.
Qed.

Lemma decode_measured (l : list Z) :
  Forall (λ b, b = 0 ∨ b = 1) l → l ≠ [] →
  decode (measured l) = Returns (lsb_value (reverse l)).
Proof.
  intros Hbits Hl. rewrite decode_nonempty by (by destruct l).
  f_equal. unfold msb_value.
  rewrite <- (reverse_involutive (measured l)), <- measured_reverse.
  apply horner_reverse. by apply Forall_reverse.
Qed.

Lemma factorize_Nj_digits (N : Z) :
  0 ≤ N →
  ∃ Nj, factorize_Nj N = Returns Nj ∧
        Forall (λ b, b = 0 ∨ b = 1) Nj ∧ Nj ≠ [] ∧ lsb_value Nj = N.
Proof.
  intros HN. destruct N as [|p|p]; [| |lia].
  - exists [0]. repeat split; [|done]. by repeat constructor.
  - exists (pos_bits p). split; [apply factorize_Nj_pos|].
    split; [apply pos_bits_binary|]. split; [by destruct p|apply pos_bits_value].
Qed.

(** X15: the encoding is injective on the non-negative integers: two
    different N >= 0 never get the same digit list Nj. *)
Theorem factorize_Nj_injective (N M : Z) :
  0 ≤ N → 0 ≤ M → factorize_Nj N = factorize_Nj M → N = M.
Proof.
  intros HN HM Heq.
  destruct (factorize_Nj_digits N HN) as (Nj & HNj & _ & _ & <-).
  destruct (factorize_Nj_digits M HM) as (Mj & HMj & _ & _ & <-).
  congruence.
Qed.

Lemma factorize_Nj_injective_witness : 143 = 143.
Proof. apply (factorize_Nj_injective 143 143); [lia|lia|reflexivity]. Defined.

(** X16: for every N >= 0 the round trip through line 361 and line 432
    returns the integer whose binary digits are those of N in reverse order;
    it returns N exactly when the digit list of N reads the same in both
    directions. *)
Theorem roundtrip_reverses (N : Z) :
  0 ≤ N →
  ∃ Nj, factorize_Nj N = Returns Nj ∧
        roundtrip N = Returns (lsb_value (reverse Nj)) ∧
        (roundtrip N = Returns N ↔ reverse Nj = Nj).
Proof.
  intros HN. destruct (factorize_Nj_digits N HN) as (Nj & HNj & Hbits & Hne & Hval).
  exists Nj. split; [done|].
  assert (Hrt : roundtrip N = Returns (lsb_value (reverse Nj))).
  { unfold roundtrip. rewrite HNj. simpl. by apply decode_measured. }
  split; [done|]. rewrite Hrt. split.
  - intros [= Hrev]. apply lsb_value_inj; [by apply Forall_reverse|done| |lia].
    apply length_reverse.
  - intros ->. by rewrite Hval.
Qed.

Lemma roundtrip_reverses_witness :
  ∃ Nj, factorize_Nj 12 = Returns Nj ∧
        roundtrip 12 = Returns (lsb_value (reverse Nj)) ∧
        (roundtrip 12 = Returns 12 ↔ reverse Nj = Nj).
Proof. apply (roundtrip_reverses 12). lia. Defined.

(** ** Every builder returns an object of its own *)

Lemma alloc_constructs (m : Py loc) (c : Circuit) :
  (∀ h, m h = (Returns (length h), h ++ [c])) → constructs m (Returns c).
Proof.
  intros Hm h. unfold constructs_in. rewrite Hm. simpl.
  eexists. split; [reflexivity|]. split; [done|]. by apply list_lookup_middle.
Qed.

Lemma PhiMultiply_constructs (X Y Zr : list Z) :
  constructs (PhiMultiply X Y Zr)
    (if (1 <=? len X) && (1 <=? len Y) && (1024 <=? len Zr)
     then Raises OverflowError else Returns []).
Proof.
  intros h. unfold constructs_in. rewrite PhiMultiply_run.
  destruct ((1 <=? len X) && (1 <=? len Y) && (1024 <=? len Zr)); simpl.
  - by eexists.
  - eexists. split; [reflexivity|]. split; [done|]. by apply list_lookup_middle.
Qed.

(** X17: oracle, the callback of amplitude_callback(bitstring), Multiply and
    PhiMultiply each work in an object of their own.  Two calls in a row with
    the same arguments end the same way: both raise the same exception
    (PhiMultiply its OverflowError, the callback the ValueError of push at an
    index i < 0), or each returns a circuit object that did not exist before
    that call, the two objects differ and hold the same instructions.  In
    both cases no object that existed is changed.  oracle returns a new empty
    circuit; the callback returns a new circuit holding the one probe on cell
    i when i >= 0, and at i < 0 leaves a new empty circuit behind. *)
Theorem builders_return_fresh_circuits (bitstring : bitarray) (i : Z)
    (X Y Zr : list Z) (h : list Circuit) :
  same_fresh_results (oracle bitstring) h ∧
  oracle bitstring h = (Returns (length h), h ++ [[]]) ∧
  same_fresh_results (amplitude_callback bitstring i) h ∧
  amplitude_callback bitstring i h =
    (if i <? 0 then (Raises ValueError, h ++ [[]])
     else (Returns (length h),
           h ++ [[mkInstruction (Amplitude bitstring) [] [] [i]]])) ∧
  same_fresh_results (Multiply X Y Zr) h ∧
  same_fresh_results (PhiMultiply X Y Zr) h.
Proof.
  split; [|split; [|split; [|split; [|split]]]].
  - eapply constructs_in_twice; by apply (alloc_constructs _ []).
  - reflexivity.
  - eapply constructs_in_twice; apply amplitude_callback_constructs.
  - apply amplitude_callback_run.
  - eapply constructs_in_twice; by apply (alloc_constructs _ []).
  - eapply constructs_in_twice; apply PhiMultiply_constructs.
Qed.

(** ** The angles of [PhiMultiply] *)

Lemma angle_halves_table : forallb angle_halves (range 1 1023) = true.
Proof. vm_compute. reflexivity. Qed.

(** X18: the angles are exact.  The angle of exponent 1 is np.pi itself, and
    for every exponent from 1 to 1022 the angle of the next exponent is
    positive and, doubled, gives the angle of this one without rounding: over
    the whole range the computed angle is 2*np.pi scaled by a power of two. *)
Theorem PhiMultiply_angle_halves (k j i : Z) :
  1 ≤ k - j - i + 1 ≤ 1022 →
  PhiMultiply_angle j j 0 = Returns np_pi ∧
  ∃ a a', PhiMultiply_angle k j i = Returns a ∧
          PhiMultiply_angle (k + 1) j i = Returns a' ∧
          (a' * 2 =? a)%float = true ∧ (0 <? a')%float = true.
Proof.
  intros He. split.
  { rewrite PhiMultiply_angle_exponent.
    replace (j - j - 0 + 1 - 1) with 0 by lia. vm_compute. reflexivity. }
  pose proof angle_halves_table as Htable. rewrite forallb_forall in Htable.
  assert (Hin : In (k - j - i + 1) (range 1 1023)).
  { apply list_elem_of_In, elem_of_range. lia. }
  apply Htable in Hin. unfold angle_halves in Hin.
  rewrite <- PhiMultiply_angle_exponent in Hin.
  rewrite (PhiMultiply_angle_exponent (k + 1) j i).
  replace (k + 1 - j - i + 1 - 1) with (k - j - i + 1) by lia.
  destruct (PhiMultiply_angle k j i) as [a|]; [|done].
  destruct (PhiMultiply_angle (k - j - i + 1) 0 0) as [a'|]; [|done].
  apply andb_prop in Hin as [Hhalf Hpos]. by exists a, a'.
Qed.

Lemma PhiMultiply_angle_halves_witness :
  PhiMultiply_angle 0 0 0 = Returns np_pi ∧
  ∃ a a', PhiMultiply_angle 5 0 2 = Returns a ∧
          PhiMultiply_angle (5 + 1) 0 2 = Returns a' ∧
          (a' * 2 =? a)%float = true ∧ (0 <? a')%float = true.
Proof. apply (PhiMultiply_angle_halves 5 0 2). lia. Defined.

(** ** The registers of [factorize] for sizes of any sign *)

(** X19: whatever the signs of nx and ny, X is the block [0, nx), Y the block
    [nx, nx+ny) and Z the block [nx+ny, 2(nx+ny)+1) (an empty block when its
    end is not past its start); X and Y never share an index, nor do Y and Z.
    With ny >= 0, X and Z share none either; with ny < 0 < nx + ny the index
    nx + ny is in both X and Z; with nx < 0 < ny the register Y holds the
    negative index nx. *)
Theorem factorize_registers_any_size (nx ny : Z) :
  let '(X, Y, Zr) := factorize_registers nx ny in
  (∀ q, q ∈ X ↔ 0 ≤ q < nx) ∧
  (∀ q, q ∈ Y ↔ nx ≤ q < nx + ny) ∧
  (∀ q, q ∈ Zr ↔ nx + ny ≤ q < 2 * (nx + ny) + 1) ∧
  (∀ q, ¬ (q ∈ X ∧ q ∈ Y)) ∧
  (∀ q, ¬ (q ∈ Y ∧ q ∈ Zr)) ∧
  (0 ≤ ny → ∀ q, ¬ (q ∈ X ∧ q ∈ Zr)) ∧
  (ny < 0 → 0 < nx + ny → nx + ny ∈ X ∧ nx + ny ∈ Zr) ∧
  (nx < 0 → 0 < ny → nx ∈ Y).
Proof.
  unfold factorize_registers.
  split; [intros q; rewrite elem_of_range; lia|].
  split; [intros q; rewrite elem_of_range; lia|].
  split; [intros q; rewrite elem_of_range; lia|].
  split; [intros q; rewrite !elem_of_range; lia|].
  split; [intros q; rewrite !elem_of_range; lia|].
  split; [intros Hny q; rewrite !elem_of_range; lia|].
  split; [intros Hny Hpos; rewrite !elem_of_range; lia|].
  intros Hnx Hny. rewrite elem_of_range. lia.
Qed.

Lemma factorize_registers_any_size_witness :
  let '(X, Y, Zr) := factorize_registers 3 (-2) in
  (∀ q, q ∈ X ↔ 0 ≤ q < 3) ∧
  (∀ q, q ∈ Y ↔ 3 ≤ q < 3 + -2) ∧
  (∀ q, q ∈ Zr ↔ 3 + -2 ≤ q < 2 * (3 + -2) + 1) ∧
  (∀ q, ¬ (q ∈ X ∧ q ∈ Y)) ∧
  (∀ q, ¬ (q ∈ Y ∧ q ∈ Zr)) ∧
  (0 ≤ -2 → ∀ q, ¬ (q ∈ X ∧ q ∈ Zr)) ∧
  (-2 < 0 → 0 < 3 + -2 → 3 + -2 ∈ X ∧ 3 + -2 ∈ Zr) ∧
  (3 < 0 → 0 < -2 → 3 ∈ Y).
Proof. apply (factorize_registers_any_size 3 (-2)). Defined.
